(** * Request logger (app.py): bounded history and SSE fan-out

    A shallow embedding of the Python module [app.py]:
    - [requests_log], a [deque(maxlen=100)] filled with [appendleft];
    - [sse_clients], a list of [asyncio.Queue] objects compared by identity,
      which live in an object store ([heap]) addressed by [loc];
    - [format_request], [notify_clients], the generator of [events],
      [get_requests] and [catch_all].

    Python [str] values are sequences of code points, [bytes] values are
    sequences of octets; both are lists of [N].  Exceptions are an explicit
    outcome of every stateful operation. *)

From Stdlib Require Import NArith ZArith Lia List String Ascii Bool.
From stdpp Require Import base option list gmap.

Local Open Scope N_scope.

(** ** Python values *)

(** A [str] is a sequence of code points. *)
Abbreviation str := (list N).
(** A [bytes] value is a sequence of octets. *)
Abbreviation bytes := (list N).

(** A literal of the source, read as its code points. *)
Definition lit (s : string) : str :=
  map (fun a => N_of_ascii a) (list_ascii_of_string s).

(** ** collections.deque with a maximal length *)

Module Deque.

(** [d.appendleft(x)] on a [deque(maxlen=maxlen)]: the item is put at the
    left end, then the deque is trimmed from the right end when it has
    grown beyond [maxlen]. *)
Definition appendleft {A : Type} (maxlen : nat) (x : A) (d : list A) : list A :=
  let d' := x :: d in
  if (maxlen <? length d')%nat then removelast d' else d'.

(** [list(d)] *)
Definition to_list {A : Type} (d : list A) : list A := d.

End Deque.

(** ** The UTF-8 codec behind [bytes.decode('utf-8', errors='replace')] *)

Module Utf8.

(** U+FFFD, the marker the [replace] error handler puts in the output. *)
Definition REPLACEMENT : N := 0xFFFD.

(** The code points a [str] can be encoded from: Unicode scalar values. *)
Definition scalar (c : N) : Prop :=
  c < 0xD800 \/ (0xE000 <= c /\ c < 0x110000).

Definition is_continuation (b : N) : bool := (0x80 <=? b) && (b <? 0xC0).

(** [str.encode('utf-8')] of one code point. *)
Definition encode_char (c : N) : bytes :=
  if c <? 0x80 then [c]
  else if c <? 0x800 then [0xC0 + c / 64; 0x80 + c mod 64]
  else if c <? 0x10000 then
    [0xE0 + c / 4096; 0x80 + (c / 64) mod 64; 0x80 + c mod 64]
  else
    [0xF0 + c / 262144; 0x80 + (c / 4096) mod 64;
     0x80 + (c / 64) mod 64; 0x80 + c mod 64].

Definition encode (s : str) : bytes := flat_map encode_char s.

(** The bytes that are the encoding of some text. *)
Definition valid (b : bytes) : Prop :=
  exists s : str, Forall scalar s /\ encode s = b.

(** The decoder with the [replace] handler.  A lead byte that cannot start
    a sequence is replaced alone; a sequence broken by a byte that cannot
    continue it is replaced up to, and decoding resumes at, that byte; a
    sequence cut short by the end of the data is replaced as a whole. *)
Fixpoint decode_replace (b : bytes) : str :=
  match b with
  | [] => []
  | ch :: rest =>
    if ch <? 0x80 then ch :: decode_replace rest
    else if ch <? 0xC2 then REPLACEMENT :: decode_replace rest
    else if ch <? 0xE0 then
      match rest with
      | [] => [REPLACEMENT]
      | ch2 :: rest2 =>
        if negb (is_continuation ch2) then REPLACEMENT :: decode_replace rest
        else ((ch - 0xC0) * 64 + (ch2 - 0x80)) :: decode_replace rest2
      end
    else if ch <? 0xF0 then
      match rest with
      | [] => [REPLACEMENT]
      | ch2 :: rest2 =>
        if negb (is_continuation ch2)
           || (if ch2 <? 0xA0 then ch =? 0xE0 else ch =? 0xED)
        then REPLACEMENT :: decode_replace rest
        else
          match rest2 with
          | [] => [REPLACEMENT]
          | ch3 :: rest3 =>
            if negb (is_continuation ch3)
            then REPLACEMENT :: decode_replace rest2
            else ((ch - 0xE0) * 4096 + (ch2 - 0x80) * 64 + (ch3 - 0x80))
                   :: decode_replace rest3
          end
      end
    else if ch <? 0xF5 then
      match rest with
      | [] => [REPLACEMENT]
      | ch2 :: rest2 =>
        if negb (is_continuation ch2)
           || (if ch2 <? 0x90 then ch =? 0xF0 else ch =? 0xF4)
        then REPLACEMENT :: decode_replace rest
        else
          match rest2 with
          | [] => [REPLACEMENT]
          | ch3 :: rest3 =>
            if negb (is_continuation ch3)
            then REPLACEMENT :: decode_replace rest2
            else
              match rest3 with
              | [] => [REPLACEMENT]
              | ch4 :: rest4 =>
                if negb (is_continuation ch4)
                then REPLACEMENT :: decode_replace rest3
                else ((ch - 0xF0) * 262144 + (ch2 - 0x80) * 4096
                      + (ch3 - 0x80) * 64 + (ch4 - 0x80))
                       :: decode_replace rest4
              end
          end
      end
    else REPLACEMENT :: decode_replace rest
  end.

(** Either the decoder met an error, or its output encodes back to its
    input. *)
Definition faithful (b : bytes) : Prop :=
  In REPLACEMENT (decode_replace b)
  \/ (Forall scalar (decode_replace b) /\ encode (decode_replace b) = b).

(** The table of the well-formed byte sequences (Unicode, table 3-7). *)
Definition table (p : bytes) : Prop :=
  match p with
  | [b1] => b1 < 0x80
  | [b1; b2] => 0xC2 <= b1 /\ b1 < 0xE0 /\ 0x80 <= b2 /\ b2 < 0xC0
  | [b1; b2; b3] =>
      0xE0 <= b1 /\ b1 < 0xF0 /\ 0x80 <= b2 /\ b2 < 0xC0
      /\ (b1 = 0xE0 -> 0xA0 <= b2) /\ (b1 = 0xED -> b2 < 0xA0)
      /\ 0x80 <= b3 /\ b3 < 0xC0
  | [b1; b2; b3; b4] =>
      0xF0 <= b1 /\ b1 < 0xF5 /\ 0x80 <= b2 /\ b2 < 0xC0
      /\ (b1 = 0xF0 -> 0x90 <= b2) /\ (b1 = 0xF4 -> b2 < 0x90)
      /\ 0x80 <= b3 /\ b3 < 0xC0 /\ 0x80 <= b4 /\ b4 < 0xC0
  | _ => False
  end.

(** The bytes start with the encoding of a code point. *)
Definition starts_well_formed (b : bytes) : Prop :=
  exists (c : N) (rest : bytes), scalar c /\ b = encode_char c ++ rest.

(** A non-empty initial part of the encoding of a code point. *)
Definition initial (p : bytes) : Prop :=
  p <> [] /\ exists (c : N) (suffix : bytes),
                scalar c /\ encode_char c = p ++ suffix.

(** [p] is the maximal subpart of the ill-formed sequence at the start of
    [p ++ rest]: the longest initial part of an encoding found there, or
    one byte when there is none. *)
Definition maximal_subpart (p rest : bytes) : Prop :=
  ~ starts_well_formed (p ++ rest)
  /\ ((exists x : N, p = [x] /\ ~ initial [x])
      \/ (initial p
          /\ match rest with
             | [] => True
             | x :: _ => ~ initial (p ++ [x])
             end)).

(** What decoding with replacement is to give: the bytes are cut in
    encodings of code points, which give their code point, and maximal
    subparts of ill-formed sequences, which give one marker each. *)
Inductive decodes : bytes -> str -> Prop :=
| decodes_nil : decodes [] []
| decodes_char (c : N) (rest : bytes) (s : str) :
    scalar c -> decodes rest s -> decodes (encode_char c ++ rest) (c :: s)
| decodes_marker (p rest : bytes) (s : str) :
    maximal_subpart p rest -> decodes rest s ->
    decodes (p ++ rest) (REPLACEMENT :: s).

End Utf8.

(** ** json.dumps, with its default [ensure_ascii=True] and separators *)

Module Json.

(** One lower-case hexadecimal digit, as a code point. *)
Definition hex_digit (d : N) : N := if d <? 10 then 48 + d else 87 + d.

(** ['\\u{0:04x}'.format(n)] *)
Definition u_escape (n : N) : str :=
  [92; 117; hex_digit ((n / 4096) mod 16); hex_digit ((n / 256) mod 16);
   hex_digit ((n / 16) mod 16); hex_digit (n mod 16)].

(** The replacement of one character matched by [ESCAPE_ASCII]; characters
    from the space to the tilde, the quote and the backslash apart, are
    not matched and stay as they are. *)
Definition escape_char (c : N) : str :=
  if c =? 92 then [92; 92]
  else if c =? 34 then [92; 34]
  else if c =? 8 then [92; 98]
  else if c =? 12 then [92; 102]
  else if c =? 10 then [92; 110]
  else if c =? 13 then [92; 114]
  else if c =? 9 then [92; 116]
  else if (32 <=? c) && (c <=? 126) then [c]
  else if c <? 0x10000 then u_escape c
  else
    let n := c - 0x10000 in
    u_escape (0xD800 + (n / 1024) mod 1024) ++ u_escape (0xDC00 + n mod 1024).

(** [py_encode_basestring_ascii] *)
Definition encode_basestring_ascii (s : str) : str :=
  [34] ++ flat_map escape_char s ++ [34].

(** [sep.join(parts)] *)
Fixpoint join (sep : str) (parts : list str) : str :=
  match parts with
  | [] => []
  | [p] => p
  | p :: ps => p ++ sep ++ join sep ps
  end.

(** The values of the dictionaries the application serialises: a string, or
    a dictionary from strings to strings. *)
Inductive value :=
| Str (s : str)
| Dict (d : list (str * str)).

Definition dumps_dict (d : list (str * str)) : str :=
  lit "{"
  ++ join (lit ", ")
       (map (fun kv => encode_basestring_ascii kv.1 ++ lit ": "
                       ++ encode_basestring_ascii kv.2) d)
  ++ lit "}".

Definition dumps_value (v : value) : str :=
  match v with
  | Str s => encode_basestring_ascii s
  | Dict d => dumps_dict d
  end.

(** [json.dumps(d)] for a dictionary [d] given by its items in order. *)
Definition dumps (d : list (str * value)) : str :=
  lit "{"
  ++ join (lit ", ")
       (map (fun kv => encode_basestring_ascii kv.1 ++ lit ": "
                       ++ dumps_value kv.2) d)
  ++ lit "}".

(** The characters from the space to the tilde. *)
Definition printable (c : N) : Prop := 32 <= c /\ c <= 126.

End Json.

(** ** The application state *)

(** The request the framework hands to a handler. *)
Record Request := {
  req_method : str;
  req_url_path : str;
  req_query_params : list (str * str);  (* items of [dict(request.query_params)] *)
  req_headers : list (str * str);       (* items of [dict(request.headers)] *)
  req_client : option str;   (* [request.client.host], or no client *)
  req_body : bytes           (* what [await request.body()] returns *)
}.

(** The dictionary built by [format_request]. *)
Record Event := {
  timestamp : str;
  method : str;
  path : str;
  query_params : list (str * str);
  headers : list (str * str);
  body : str;
  client : str
}.

(** The items of the dictionary, in insertion order. *)
Definition event_items (e : Event) : list (str * Json.value) :=
  [ (lit "timestamp", Json.Str (timestamp e));
    (lit "method", Json.Str (method e));
    (lit "path", Json.Str (path e));
    (lit "query_params", Json.Dict (query_params e));
    (lit "headers", Json.Dict (headers e));
    (lit "body", Json.Str (body e));
    (lit "client", Json.Str (client e)) ].

(** An [asyncio.Queue] object.  [put_raises] stands for a queue whose [put]
    fails; the queues the application creates never do. *)
Record Queue := {
  items : list str;
  put_raises : bool
}.

(** Objects are compared by identity: a queue is known by its address. *)
Abbreviation loc := nat.

Record State := {
  requests_log : list Event;      (* deque(maxlen=100) *)
  sse_clients : list loc;         (* the list of registered queues *)
  heap : gmap loc Queue;          (* the queue objects *)
  clock : N                       (* elapsed time-units *)
}.

(** The state when the module has been loaded. *)
Definition initial : State :=
  {| requests_log := []; sse_clients := []; heap := ∅; clock := 0 |}.

Definition MAXLEN : nat := 100.

(** ** Computations that change the state and may raise *)

Inductive exn := ValueError | TimeoutError | PutError.

#[global] Instance exn_eq_dec : EqDecision exn.
Proof. solve_decision. Defined.

Definition M (A : Type) : Type := State -> (exn + A) * State.

#[global] Instance M_ret : MRet M := fun A a st => (inr a, st).

#[global] Instance M_bind : MBind M := fun A B k m st =>
  match m st with
  | (inr a, st') => k a st'
  | (inl e, st') => (inl e, st')
  end.

(** [try: m  except: h] *)
Definition try_except {A : Type} (m : M A) (h : M A) : M A := fun st =>
  match m st with
  | (inr a, st') => (inr a, st')
  | (inl _, st') => h st'
  end.

(** [try: m  except e: h] *)
Definition try_except_on {A : Type} (e : exn) (m : M A) (h : M A) : M A :=
  fun st =>
  match m st with
  | (inr a, st') => (inr a, st')
  | (inl e', st') => if decide (e' = e) then h st' else (inl e', st')
  end.

(** [for x in xs: f x] *)
Fixpoint for_each {A : Type} (xs : list A) (f : A -> M unit) : M unit :=
  match xs with
  | [] => mret tt
  | x :: xs' => f x ;; for_each xs' f
  end.

(** ** Lists and queues *)

(** [l.remove(x)]: the first item equal to [x] is removed; [None] stands for
    the [ValueError] raised when there is none. *)
Fixpoint list_remove (x : loc) (l : list loc) : option (list loc) :=
  match l with
  | [] => None
  | y :: l' =>
      if decide (y = x) then Some l' else cons y <$> list_remove x l'
  end.

Definition set_requests_log (f : list Event -> list Event) (st : State) : State :=
  {| requests_log := f (requests_log st); sse_clients := sse_clients st;
     heap := heap st; clock := clock st |}.

Definition set_sse_clients (f : list loc -> list loc) (st : State) : State :=
  {| requests_log := requests_log st; sse_clients := f (sse_clients st);
     heap := heap st; clock := clock st |}.

Definition set_heap (f : gmap loc Queue -> gmap loc Queue) (st : State) : State :=
  {| requests_log := requests_log st; sse_clients := sse_clients st;
     heap := f (heap st); clock := clock st |}.

Definition set_clock (f : N -> N) (st : State) : State :=
  {| requests_log := requests_log st; sse_clients := sse_clients st;
     heap := heap st; clock := f (clock st) |}.

(** [sse_clients.append(q)] *)
Definition sse_clients_append (q : loc) : M unit := fun st =>
  (inr tt, set_sse_clients (fun l => l ++ [q]) st).

(** [sse_clients.remove(q)] *)
Definition sse_clients_remove (q : loc) : M unit := fun st =>
  match list_remove q (sse_clients st) with
  | Some l => (inr tt, set_sse_clients (fun _ => l) st)
  | None => (inl ValueError, st)
  end.

(** [asyncio.Queue()]: a new, empty, unbounded queue at a fresh address. *)
Definition Queue_new : M loc := fun st =>
  let q := fresh (dom (heap st)) in
  (inr q, set_heap (insert q {| items := []; put_raises := false |}) st).

(** [await q.put(message)] *)
Definition Queue_put (q : loc) (message : str) : M unit := fun st =>
  match heap st !! q with
  | Some o =>
      if put_raises o then (inl PutError, st)
      else (inr tt,
            set_heap (insert q {| items := items o ++ [message];
                                  put_raises := put_raises o |}) st)
  | None => (inl PutError, st)
  end.

(** [await asyncio.wait_for(q.get(), timeout)]: the oldest message when
    there is one; otherwise nothing arrives while this task waits, the time
    runs out and [TimeoutError] is raised. *)
Definition wait_for_get (q : loc) (timeout : N) : M str := fun st =>
  match heap st !! q with
  | Some {| items := message :: rest; put_raises := r |} =>
      (inr message,
       set_heap (insert q {| items := rest; put_raises := r |}) st)
  | _ => (inl TimeoutError, set_clock (fun t => t + timeout) st)
  end.

(** ** The handlers *)

(** [format_request(request, body)]; [now] is [datetime.now().isoformat()]. *)
Definition format_request (now : str) (request : Request) (body : bytes) : Event :=
  {| timestamp := now;
     method := req_method request;
     path := req_url_path request;
     query_params := req_query_params request;
     headers := req_headers request;
     body := match body with
             | [] => lit ""
             | _ => Utf8.decode_replace body
             end;
     client := match req_client request with
               | Some host => host
               | None => lit "unknown"
               end |}.

(** The text put in the queues for an event. *)
Definition sse_message (request_data : Event) : str :=
  lit "data: " ++ Json.dumps (event_items request_data) ++ [10; 10].

(** [notify_clients(request_data)] *)
Definition notify_clients (request_data : Event) : M unit := fun st =>
  let message := sse_message request_data in
  for_each (sse_clients st)
    (fun client_queue =>
       try_except (Queue_put client_queue message)
                  (sse_clients_remove client_queue)) st.

(** The generator of [events] up to its loop: the queue is created and
    registered. *)
Definition events_start : M loc :=
  client_queue ← Queue_new;
  sse_clients_append client_queue ;;
  mret client_queue.

Definition KEEP_ALIVE : str := lit ": keep-alive" ++ [10; 10].

Definition TIMEOUT : N := 30.

(** What one turn of the [while True] loop does: it yields a text, or it
    leaves the loop. *)
Inductive turn := Yield (text : str) | Break.

(** The body of the loop; [disconnected] is what
    [await request.is_disconnected()] answers. *)
Definition events_body (disconnected : bool) (client_queue : loc) : M turn :=
  if disconnected then mret Break
  else
    try_except_on TimeoutError
      (message ← wait_for_get client_queue TIMEOUT; mret (Yield message))
      (mret (Yield KEEP_ALIVE)).

(** The [finally] clause of the generator. *)
Definition events_finally (client_queue : loc) : M unit :=
  sse_clients_remove client_queue.

(** One turn of the generator: the body, and the [finally] clause when the
    loop is left. *)
Definition events_turn (disconnected : bool) (client_queue : loc) : M turn :=
  t ← events_body disconnected client_queue;
  match t with
  | Break => events_finally client_queue ;; mret Break
  | Yield text => mret (Yield text)
  end.

(** [n] turns in a row with the client connected, and what they yield. *)
Fixpoint events_turns (n : nat) (client_queue : loc) : M (list turn) :=
  match n with
  | O => mret []
  | S n' =>
      t ← events_turn false client_queue;
      ts ← events_turns n' client_queue;
      mret (t :: ts)
  end.

(** [get_requests()] *)
Definition get_requests : M (list Event) := fun st =>
  (inr (Deque.to_list (requests_log st)), st).

(** [requests_log.appendleft(request_data)] *)
Definition requests_log_appendleft (request_data : Event) : M unit := fun st =>
  (inr tt, set_requests_log (Deque.appendleft MAXLEN request_data) st).

Definition RESERVED : list str := [lit ""; lit "events"; lit "api/requests"].

(** [catch_all(request, path)]; the result is the dictionary returned. *)
Definition catch_all (now : str) (request : Request) (path : str)
  : M (list (str * str)) :=
  if decide (path ∈ RESERVED)
  then mret [(lit "message", lit "This is an internal endpoint")]
  else
    let body := req_body request in
    let request_data := format_request now request body in
    requests_log_appendleft request_data ;;
    notify_clients request_data ;;
    mret [ (lit "status", lit "logged");
           (lit "message", lit "Request has been logged successfully");
           (lit "timestamp", timestamp request_data) ].

(** The store and the hub as the specification names them. *)
Definition append (e : Event) : M unit := requests_log_appendleft e.
Definition snapshot : M (list Event) := get_requests.
Definition subscribe : M loc := events_start.
Definition publish (e : Event) : M unit := notify_clients e.

(** Publishing, and appending, a sequence of events in order. *)
Definition publish_all (es : list Event) : M unit := for_each es publish.
Definition append_all (es : list Event) : M unit := for_each es append.

(** The messages held by the queue at [q]. *)
Definition queue_items (st : State) (q : loc) : list str :=
  match heap st !! q with
  | Some o => items o
  | None => []
  end.


(** A queue whose [put] succeeds. *)
Definition healthy (h : gmap loc Queue) (q : loc) : bool :=
  match h !! q with
  | Some o => negb (put_raises o)
  | None => false
  end.

(** What a delivery attempt does to the queue objects. *)
Definition deliver (message : str) (h : gmap loc Queue) (q : loc)
  : gmap loc Queue :=
  match h !! q with
  | Some o =>
      if put_raises o then h
      else <[q := {| items := items o ++ [message];
                     put_raises := put_raises o |}]> h
  | None => h
  end.

(** What publishing the messages [msgs], in order, makes of a state. *)
Record fanned_out (msgs : list str) (st st' : State) : Prop := {
  fo_log : requests_log st' = requests_log st;
  fo_clock : clock st' = clock st;
  fo_health : forall q, healthy (heap st') q = healthy (heap st) q;
  fo_kept : forall q, q ∈ sse_clients st' -> q ∈ sse_clients st;
  fo_nodup : NoDup (sse_clients st) -> NoDup (sse_clients st');
  fo_alive : forall q,
    q ∈ sse_clients st -> healthy (heap st) q = true -> q ∈ sse_clients st';
  fo_received : NoDup (sse_clients st) -> forall q,
    q ∈ sse_clients st -> healthy (heap st) q = true ->
    queue_items st' q = queue_items st q ++ msgs;
  fo_absent : forall q, q ∉ sse_clients st -> heap st' !! q = heap st !! q;
  fo_dead : forall q,
    healthy (heap st) q = false -> heap st' !! q = heap st !! q;
  fo_reaped : msgs <> [] -> forall q,
    q ∈ sse_clients st' -> healthy (heap st) q = true;
  fo_same : (forall q, q ∈ sse_clients st -> healthy (heap st) q = true) ->
    sse_clients st' = sse_clients st
}.

(** A hub whose registered queues are distinct objects that accept
    messages. *)
Definition sound_hub (st : State) : Prop :=
  NoDup (sse_clients st)
  /\ forall q, q ∈ sse_clients st -> healthy (heap st) q = true.


(** ** The runs of the program *)






(** ** Sample data *)

Definition sample_request (n : N) : Request :=
  {| req_method := lit "POST";
     req_url_path := lit "/hook";
     req_query_params := [(lit "n", [48 + n])];
     req_headers := [(lit "host", lit "localhost")];
     req_client := Some (lit "127.0.0.1");
     req_body := Utf8.encode [0x6E; 0x3D; 0x20AC; 48 + n] |}.

Definition sample_event (n : N) : Event :=
  format_request (lit "2024-01-01T00:00:0" ++ [48 + n]) (sample_request n)
    (req_body (sample_request n)).

(** A hub with a healthy queue at 0 and a failing one at 1. *)
Definition sample_hub : State :=
  {| requests_log := [];
     sse_clients := [0%nat; 1%nat];
     heap := {[ 0%nat := {| items := []; put_raises := false |};
                1%nat := {| items := []; put_raises := true |} ]};
     clock := 0 |}.

(** * Facts *)

(** Arithmetic goals with divisions and remainders are left to [lia]. *)
Ltac Zify.zify_post_hook ::= Z.to_euclidean_division_equations.

(** ** The deque *)

Section DequeFacts.
Context {A : Type}.
Import Deque.

Lemma removelast_take (l : list A) :
  removelast l = take (pred (length l)) l.
Proof.
  induction l as [|x l IH]; [reflexivity|].
  destruct l as [|y l]; [reflexivity|].
  change (removelast (x :: y :: l)) with (x :: removelast (y :: l)).
  rewrite IH. reflexivity.
Qed.

Lemma appendleft_take (maxlen : nat) (x : A) (d : list A) :
  (length d <= maxlen)%nat ->
  appendleft maxlen x d = take maxlen (x :: d).
Proof.
  intros Hlen. unfold appendleft. cbv zeta.
  destruct (Nat.ltb_spec maxlen (length (x :: d))) as [Hlt|Hge].
  - rewrite removelast_take. simpl length in *.
    replace (pred (S (length d))) with maxlen by lia. reflexivity.
  - rewrite take_ge; [reflexivity|exact Hge].
Qed.

Lemma appendleft_length (maxlen : nat) (x : A) (d : list A) :
  (length d <= maxlen)%nat ->
  (length (appendleft maxlen x d) <= maxlen)%nat.
Proof.
  intros Hlen. rewrite appendleft_take by exact Hlen.
  rewrite length_take. lia.
Qed.

End DequeFacts.

(** ** The codec *)

Module Utf8Facts.
Import Utf8.

(** Case analysis on the comparisons of the goal; [lia] closes the cases
    the context excludes. *)
Ltac bool_cases :=
  repeat match goal with
  | |- context [N.ltb ?a ?b] => destruct (N.ltb_spec a b); try lia
  | |- context [N.leb ?a ?b] => destruct (N.leb_spec a b); try lia
  | |- context [N.eqb ?a ?b] => destruct (N.eqb_spec a b); try lia
  end.

Lemma faithful_replaced (b : bytes) :
  head (decode_replace b) = Some REPLACEMENT -> faithful b.
Proof.
  intros E. left. destruct (decode_replace b); [discriminate|].
  injection E as ->. left. reflexivity.
Qed.

Lemma faithful_char (c : N) (pre rest b : bytes) :
  decode_replace b = c :: decode_replace rest ->
  b = pre ++ rest ->
  scalar c -> encode_char c = pre ->
  faithful rest -> faithful b.
Proof.
  intros E -> Hc Hpre [Hin|[Hall Henc]].
  - left. rewrite E. right. exact Hin.
  - right. rewrite E. split; [constructor; assumption|].
    unfold encode in *. cbn [flat_map]. rewrite Henc, Hpre. reflexivity.
Qed.

(** The decoder unfolded by one byte. *)
Lemma decode_replace_cons (ch : N) (rest : bytes) :
  decode_replace (ch :: rest) =
  ltac:(let t := eval cbv beta delta [decode_replace] fix in (decode_replace (ch :: rest)) in
        let t := eval cbv beta match in t in
        let t := eval fold decode_replace in t in exact t).
Proof. reflexivity. Qed.

Ltac decode_step :=
  rewrite decode_replace_cons; cbv beta match;
  unfold is_continuation; bool_cases;
  cbn [negb andb orb]; reflexivity.

Ltac replaced := apply faithful_replaced; decode_step.

Ltac decoded c pre rest IH :=
  apply (faithful_char c pre rest);
  [ decode_step
  | reflexivity
  | unfold scalar; lia
  | unfold encode_char; bool_cases; repeat f_equal; lia
  | apply IH; cbn [length] in *; lia ].

Ltac continuation_cases c :=
  destruct (N.leb_spec 0x80 c); [destruct (N.ltb_spec c 0xC0)|].

Lemma decode_faithful_upto (n : nat) :
  forall b : bytes, (length b <= n)%nat -> faithful b.
Proof.
  induction n as [|n IH]; intros b Hlen.
  { destruct b; [|simpl in Hlen; lia]. right. split; [constructor|reflexivity]. }
  destruct b as [|ch rest].
  { right. split; [constructor|reflexivity]. }
  destruct (N.ltb_spec ch 0x80).
  { decoded ch [ch] rest IH. }
  destruct (N.ltb_spec ch 0xC2).
  { replaced. }
  destruct (N.ltb_spec ch 0xE0).
  { destruct rest as [|ch2 rest2]; [replaced|].
    continuation_cases ch2; [|replaced|replaced].
    decoded ((ch - 0xC0) * 64 + (ch2 - 0x80)) [ch; ch2] rest2 IH. }
  destruct (N.ltb_spec ch 0xF0).
  { destruct rest as [|ch2 rest2]; [replaced|].
    continuation_cases ch2; [|replaced|replaced].
    destruct (N.ltb_spec ch2 0xA0);
      [destruct (N.eqb_spec ch 0xE0); [replaced|]
      |destruct (N.eqb_spec ch 0xED); [replaced|]];
    (destruct rest2 as [|ch3 rest3]; [replaced|];
     continuation_cases ch3; [|replaced|replaced];
     decoded ((ch - 0xE0) * 4096 + (ch2 - 0x80) * 64 + (ch3 - 0x80))
             [ch; ch2; ch3] rest3 IH). }
  destruct (N.ltb_spec ch 0xF5); [|replaced].
  destruct rest as [|ch2 rest2]; [replaced|].
  continuation_cases ch2; [|replaced|replaced].
  destruct (N.ltb_spec ch2 0x90);
    [destruct (N.eqb_spec ch 0xF0); [replaced|]
    |destruct (N.eqb_spec ch 0xF4); [replaced|]];
  (destruct rest2 as [|ch3 rest3]; [replaced|];
   continuation_cases ch3; [|replaced|replaced];
   destruct rest3 as [|ch4 rest4]; [replaced|];
   continuation_cases ch4; [|replaced|replaced];
   decoded ((ch - 0xF0) * 262144 + (ch2 - 0x80) * 4096
            + (ch3 - 0x80) * 64 + (ch4 - 0x80))
           [ch; ch2; ch3; ch4] rest4 IH).
Qed.

Lemma decode_faithful (b : bytes) : faithful b.
Proof. exact (decode_faithful_upto (length b) b (le_n _)). Qed.

(** Decoding a well-formed sequence gives back its code point, whatever
    follows it. *)
Lemma decode_encode_char (c : N) (b : bytes) :
  scalar c -> decode_replace (encode_char c ++ b) = c :: decode_replace b.
Proof.
  intros Hc. unfold scalar in Hc. unfold encode_char.
  destruct (N.ltb_spec c 0x80);
    [|destruct (N.ltb_spec c 0x800); [|destruct (N.ltb_spec c 0x10000)]];
    cbn [app]; rewrite decode_replace_cons; cbv beta match;
    unfold is_continuation; bool_cases; cbn [negb andb orb];
    f_equal; lia.
Qed.

Lemma decode_encode_app (s : str) (b : bytes) :
  Forall scalar s -> decode_replace (encode s ++ b) = s ++ decode_replace b.
Proof.
  induction 1 as [|c s Hc Hs IH]; [reflexivity|].
  unfold encode in *. cbn [flat_map]. rewrite <- app_assoc.
  rewrite decode_encode_char by exact Hc. rewrite IH. reflexivity.
Qed.

(** Decoding is a left inverse of encoding. *)
Lemma decode_encode (s : str) :
  Forall scalar s -> decode_replace (encode s) = s.
Proof.
  intros Hs. rewrite <- (app_nil_r (encode s)).
  rewrite decode_encode_app by exact Hs. apply app_nil_r.
Qed.

(** Bytes that are no encoding of a text decode to a text with a marker. *)
Lemma decode_invalid_marked (b : bytes) :
  ~ valid b -> In REPLACEMENT (decode_replace b).
Proof.
  intros Hinv. destruct (decode_faithful b) as [Hin|[Hall Henc]];
    [exact Hin|].
  exfalso. apply Hinv. exists (decode_replace b). split; assumption.
Qed.

(** A byte that cannot start a sequence, between two well-formed texts,
    becomes one marker between them. *)
Lemma decode_invalid_start (s1 : str) (x : N) (b2 : bytes) :
  Forall scalar s1 ->
  (0x80 <= x /\ x < 0xC2) \/ 0xF5 <= x ->
  decode_replace (encode s1 ++ x :: b2)
  = s1 ++ REPLACEMENT :: decode_replace b2.
Proof.
  intros Hs Hx. rewrite decode_encode_app by exact Hs. f_equal.
  rewrite decode_replace_cons. bool_cases; reflexivity.
Qed.


End Utf8Facts.

(** ** The codec and the maximal subparts *)

Module Utf8Spec.
Import Utf8 Utf8Facts.

Lemma encode_char_table (c : N) : scalar c -> table (encode_char c).
Proof.
  unfold scalar, encode_char. intros Hc.
  destruct (N.ltb_spec c 0x80);
    [|destruct (N.ltb_spec c 0x800); [|destruct (N.ltb_spec c 0x10000)]];
    cbn [table]; lia.
Qed.

Lemma table_encode (p : bytes) :
  table p -> exists c : N, scalar c /\ encode_char c = p.
Proof.
  destruct p as [|b1 [|b2 [|b3 [|b4 [|b5 p]]]]]; cbn [table];
    try contradiction; intros H.
  - exists b1. split; [left; lia|]. unfold encode_char.
    bool_cases. reflexivity.
  - exists ((b1 - 0xC0) * 64 + (b2 - 0x80)). split; [left; lia|].
    unfold encode_char. bool_cases. repeat f_equal; lia.
  - exists ((b1 - 0xE0) * 4096 + (b2 - 0x80) * 64 + (b3 - 0x80)).
    split; [unfold scalar; lia|].
    unfold encode_char. bool_cases. repeat f_equal; lia.
  - exists ((b1 - 0xF0) * 262144 + (b2 - 0x80) * 4096
            + (b3 - 0x80) * 64 + (b4 - 0x80)).
    split; [unfold scalar; lia|].
    unfold encode_char. bool_cases. repeat f_equal; lia.
Qed.

Lemma starts_well_formed_table (b : bytes) :
  starts_well_formed b <-> exists p rest, table p /\ b = p ++ rest.
Proof.
  split.
  - intros (c & rest & Hc & ->). exists (encode_char c), rest.
    split; [apply encode_char_table, Hc|reflexivity].
  - intros (p & rest & Hp & ->). destruct (table_encode p Hp) as (c & Hc & <-).
    exists c, rest. split; [exact Hc|reflexivity].
Qed.

Lemma initial_table (p : bytes) :
  initial p <-> p <> [] /\ exists suffix, table (p ++ suffix).
Proof.
  unfold initial. split; intros [Hne H]; (split; [exact Hne|]).
  - destruct H as (c & suffix & Hc & E). exists suffix. rewrite <- E.
    apply encode_char_table, Hc.
  - destruct H as (suffix & Ht). destruct (table_encode _ Ht) as (c & Hc & E).
    exists c, suffix. split; assumption.
Qed.


(** Initial parts of encodings, by their bytes. *)
Lemma initial_lead2 (b1 : N) : 0xC2 <= b1 -> b1 < 0xE0 -> initial [b1].
Proof.
  intros. apply initial_table. split; [discriminate|].
  exists [0x80]. cbn [app table]. lia.
Qed.

Lemma initial_lead3 (b1 : N) : 0xE0 <= b1 -> b1 < 0xF0 -> initial [b1].
Proof.
  intros. apply initial_table. split; [discriminate|].
  destruct (N.eqb_spec b1 0xE0);
    [exists [0xA0; 0x80]|exists [0x80; 0x80]]; cbn [app table]; lia.
Qed.

Lemma initial_lead4 (b1 : N) : 0xF0 <= b1 -> b1 < 0xF5 -> initial [b1].
Proof.
  intros. apply initial_table. split; [discriminate|].
  destruct (N.eqb_spec b1 0xF0);
    [exists [0x90; 0x80; 0x80]|exists [0x80; 0x80; 0x80]];
    cbn [app table]; lia.
Qed.

Lemma initial_lead3_2 (b1 b2 : N) :
  0xE0 <= b1 -> b1 < 0xF0 -> 0x80 <= b2 -> b2 < 0xC0 ->
  (b1 = 0xE0 -> 0xA0 <= b2) -> (b1 = 0xED -> b2 < 0xA0) ->
  initial [b1; b2].
Proof.
  intros. apply initial_table. split; [discriminate|].
  exists [0x80]. cbn [app table]. lia.
Qed.

Lemma initial_lead4_2 (b1 b2 : N) :
  0xF0 <= b1 -> b1 < 0xF5 -> 0x80 <= b2 -> b2 < 0xC0 ->
  (b1 = 0xF0 -> 0x90 <= b2) -> (b1 = 0xF4 -> b2 < 0x90) ->
  initial [b1; b2].
Proof.
  intros. apply initial_table. split; [discriminate|].
  exists [0x80; 0x80]. cbn [app table]. lia.
Qed.

Lemma initial_lead4_3 (b1 b2 b3 : N) :
  0xF0 <= b1 -> b1 < 0xF5 -> 0x80 <= b2 -> b2 < 0xC0 ->
  (b1 = 0xF0 -> 0x90 <= b2) -> (b1 = 0xF4 -> b2 < 0x90) ->
  0x80 <= b3 -> b3 < 0xC0 ->
  initial [b1; b2; b3].
Proof.
  intros. apply initial_table. split; [discriminate|].
  exists [0x80]. cbn [app table]. lia.
Qed.

(** No encoding starts the bytes of the goal. *)
Ltac not_well_formed :=
  cbn [app]; rewrite starts_well_formed_table;
  let p := fresh "p" in let r := fresh "r" in
  let Ht := fresh "Ht" in let E := fresh "E" in
  intros (p & r & Ht & E);
  destruct p as [|? [|? [|? [|? [|? ?]]]]]; cbn [table] in Ht;
  try contradiction; cbn [app] in E; simplify_eq; lia.

(** The bytes of the goal are no initial part of an encoding. *)
Ltac not_initial :=
  cbn [app]; rewrite initial_table;
  let suf := fresh "suf" in let Ht := fresh "Ht" in
  intros (_ & suf & Ht); cbn [app] in Ht;
  destruct suf as [|? [|? [|? [|? ?]]]]; cbn [table] in Ht;
  try contradiction; lia.

(** The bytes of the goal are an initial part of an encoding. *)
Ltac is_initial :=
  first [ apply initial_lead2; lia | apply initial_lead3; lia
        | apply initial_lead4; lia | apply initial_lead3_2; lia
        | apply initial_lead4_2; lia | apply initial_lead4_3; lia
        | apply initial_table; split;
          [discriminate|exists (@nil N); cbn [app table]; lia] ].

Lemma decodes_step_char (c : N) (pre rest b : bytes) :
  decode_replace b = c :: decode_replace rest ->
  b = pre ++ rest -> scalar c -> encode_char c = pre ->
  decodes rest (decode_replace rest) -> decodes b (decode_replace b).
Proof.
  intros E -> Hc <- Hrest. rewrite E. apply decodes_char; assumption.
Qed.

Lemma decodes_step_marker (p rest b : bytes) :
  decode_replace b = REPLACEMENT :: decode_replace rest ->
  b = p ++ rest -> maximal_subpart p rest ->
  decodes rest (decode_replace rest) -> decodes b (decode_replace b).
Proof.
  intros E -> Hp Hrest. rewrite E. apply decodes_marker; assumption.
Qed.

(** A code point decoded from the bytes [pre]. *)
Ltac char_step c pre rest IH :=
  apply (decodes_step_char c pre rest);
  [ decode_step
  | reflexivity
  | unfold scalar; lia
  | unfold encode_char; bool_cases; repeat f_equal; lia
  | apply IH; cbn [length] in *; lia ].

(** A marker for one byte that starts no encoding. *)
Ltac marker_byte x rest IH :=
  apply (decodes_step_marker [x] rest);
  [ decode_step
  | reflexivity
  | split; [not_well_formed|left; exists x; split; [reflexivity|not_initial]]
  | apply IH; cbn [length] in *; lia ].

(** A marker for the initial part [p] of an encoding, broken by the head
    of [rest] or by the end of the bytes. *)
Ltac marker_part p rest IH :=
  apply (decodes_step_marker p rest);
  [ decode_step
  | reflexivity
  | split; [not_well_formed
           |right; split; [is_initial|first [exact I|not_initial]]]
  | first [apply decodes_nil | apply IH; cbn [length] in *; lia] ].

Lemma decode_meets_spec_upto (n : nat) :
  forall b : bytes, (length b <= n)%nat -> decodes b (decode_replace b).
Proof.
  induction n as [|n IH]; intros b Hlen.
  { destruct b; [apply decodes_nil|simpl in Hlen; lia]. }
  destruct b as [|ch rest]; [apply decodes_nil|].
  destruct (N.ltb_spec ch 0x80).
  { char_step ch [ch] rest IH. }
  destruct (N.ltb_spec ch 0xC2).
  { marker_byte ch rest IH. }
  destruct (N.ltb_spec ch 0xE0).
  { destruct rest as [|ch2 rest2]; [marker_part [ch] (@nil N) IH|].
    continuation_cases ch2;
      [|marker_part [ch] (ch2 :: rest2) IH..].
    char_step ((ch - 0xC0) * 64 + (ch2 - 0x80)) [ch; ch2] rest2 IH. }
  destruct (N.ltb_spec ch 0xF0).
  { destruct rest as [|ch2 rest2]; [marker_part [ch] (@nil N) IH|].
    continuation_cases ch2;
      [|marker_part [ch] (ch2 :: rest2) IH..].
    destruct (N.ltb_spec ch2 0xA0);
      [destruct (N.eqb_spec ch 0xE0);
         [marker_part [ch] (ch2 :: rest2) IH|]
      |destruct (N.eqb_spec ch 0xED);
         [marker_part [ch] (ch2 :: rest2) IH|]];
    (destruct rest2 as [|ch3 rest3]; [marker_part [ch; ch2] (@nil N) IH|];
     continuation_cases ch3;
       [|marker_part [ch; ch2] (ch3 :: rest3) IH..];
     char_step ((ch - 0xE0) * 4096 + (ch2 - 0x80) * 64 + (ch3 - 0x80))
               [ch; ch2; ch3] rest3 IH). }
  destruct (N.ltb_spec ch 0xF5); [|marker_byte ch rest IH].
  destruct rest as [|ch2 rest2]; [marker_part [ch] (@nil N) IH|].
  continuation_cases ch2; [|marker_part [ch] (ch2 :: rest2) IH..].
  destruct (N.ltb_spec ch2 0x90);
    [destruct (N.eqb_spec ch 0xF0); [marker_part [ch] (ch2 :: rest2) IH|]
    |destruct (N.eqb_spec ch 0xF4); [marker_part [ch] (ch2 :: rest2) IH|]];
  (destruct rest2 as [|ch3 rest3]; [marker_part [ch; ch2] (@nil N) IH|];
   continuation_cases ch3; [|marker_part [ch; ch2] (ch3 :: rest3) IH..];
   destruct rest3 as [|ch4 rest4];
     [marker_part [ch; ch2; ch3] (@nil N) IH|];
   continuation_cases ch4;
     [|marker_part [ch; ch2; ch3] (ch4 :: rest4) IH..];
   char_step ((ch - 0xF0) * 262144 + (ch2 - 0x80) * 4096
              + (ch3 - 0x80) * 64 + (ch4 - 0x80))
             [ch; ch2; ch3; ch4] rest4 IH).
Qed.

(** The decoder gives what the specification asks for. *)
Lemma decode_meets_spec (b : bytes) : decodes b (decode_replace b).
Proof. exact (decode_meets_spec_upto (length b) b (le_n _)). Qed.


(** The decoder puts one marker for a maximal subpart and goes on after
    it. *)
Lemma decode_maximal_subpart (p rest : bytes) :
  maximal_subpart p rest ->
  decode_replace (p ++ rest) = REPLACEMENT :: decode_replace rest.
Proof.
  intros [Hnw [(x & -> & Hx)|[Hp Hmax]]].
  - assert ((0x80 <= x /\ x < 0xC2) \/ 0xF5 <= x) as Hbad.
    { destruct (N.ltb_spec x 0x80).
      { exfalso. apply Hx, initial_table. split; [discriminate|].
        exists []. cbn [app table]. lia. }
      destruct (N.ltb_spec x 0xC2); [lia|].
      destruct (N.ltb_spec x 0xF5); [|lia].
      exfalso. apply Hx.
      destruct (N.ltb_spec x 0xE0); [is_initial|].
      destruct (N.ltb_spec x 0xF0); is_initial. }
    cbn [app]. rewrite decode_replace_cons. bool_cases; reflexivity.
  - pose proof Hp as Hp'. apply initial_table in Hp' as (Hne & suf & Ht).
    assert (Hsuf : suf <> []).
    { intros ->. rewrite app_nil_r in Ht. apply Hnw.
      apply starts_well_formed_table. eauto. }
    destruct p as [|b1 [|b2 [|b3 [|b4 [|b5 p]]]]]; [congruence|..];
      destruct suf as [|s1 [|s2 [|s3 [|s4 suf]]]]; try congruence;
      cbn [app table] in Ht; try contradiction;
      (destruct rest as [|x rest'];
       [ cbn [app]; decode_step
       | cbn [app] in Hmax |- *;
         rewrite decode_replace_cons; cbv beta match;
         unfold is_continuation;
         repeat match goal with
         | |- context [N.ltb ?a ?b] => destruct (N.ltb_spec a b); try lia
         | |- context [N.leb ?a ?b] => destruct (N.leb_spec a b); try lia
         | |- context [N.eqb ?a ?b] => destruct (N.eqb_spec a b); try lia
         end; cbn [negb andb orb];
         first [ reflexivity | exfalso; apply Hmax; is_initial ] ]).
Qed.

(** The specification is met by the decoder only. *)
Lemma decodes_unique (b : bytes) (s : str) :
  decodes b s -> s = decode_replace b.
Proof.
  induction 1 as [|c rest s Hc _ IH|p rest s Hp _ IH].
  - reflexivity.
  - rewrite decode_encode_char by exact Hc. rewrite IH. reflexivity.
  - rewrite decode_maximal_subpart by exact Hp. rewrite IH. reflexivity.
Qed.

Lemma decodes_iff (b : bytes) (s : str) :
  decodes b s <-> s = decode_replace b.
Proof.
  split; [apply decodes_unique|]. intros ->. apply decode_meets_spec.
Qed.

End Utf8Spec.

(** ** The serialiser *)

Module JsonFacts.
Import Json.

Ltac forall_list :=
  repeat match goal with
  | |- Forall _ (_ :: _) => constructor
  | |- Forall _ [] => constructor
  end.

Lemma hex_digit_printable (d : N) : d < 16 -> printable (hex_digit d).
Proof.
  intros Hd. unfold hex_digit, printable.
  destruct (N.ltb_spec d 10); lia.
Qed.

Lemma u_escape_printable (n : N) : Forall printable (u_escape n).
Proof.
  unfold u_escape.
  forall_list;
    try (apply hex_digit_printable; apply N.mod_lt; discriminate);
    unfold printable; lia.
Qed.

Lemma escape_char_printable (c : N) : Forall printable (escape_char c).
Proof.
  unfold escape_char.
  repeat match goal with
  | |- context [N.eqb ?a ?b] => destruct (N.eqb_spec a b)
  end;
  try (forall_list;
       unfold printable; lia).
  destruct (N.leb_spec 32 c); destruct (N.leb_spec c 126); cbn [andb];
    try (forall_list;
         unfold printable; lia);
    (destruct (N.ltb_spec c 65536);
     [apply u_escape_printable
     |cbv zeta; apply Forall_app; split; apply u_escape_printable]).
Qed.

Lemma encode_basestring_ascii_printable (s : str) :
  Forall printable (encode_basestring_ascii s).
Proof.
  unfold encode_basestring_ascii.
  apply Forall_app; split; [|apply Forall_app; split].
  - forall_list. unfold printable. lia.
  - induction s as [|c s IH]; cbn [flat_map]; [constructor|].
    apply Forall_app; split; [apply escape_char_printable|exact IH].
  - forall_list. unfold printable. lia.
Qed.

Lemma lit_printable_check (s : string) :
  forallb (fun c => (32 <=? c) && (c <=? 126)) (lit s) = true ->
  Forall printable (lit s).
Proof.
  intros H. apply Forall_forall. intros c Hc.
  rewrite forallb_forall in H. specialize (H c). 
  rewrite <- list_elem_of_In in H. specialize (H Hc).
  apply andb_true_iff in H as [H1 H2].
  apply N.leb_le in H1, H2. split; assumption.
Qed.

Lemma join_printable (sep : str) (parts : list str) :
  Forall printable sep -> Forall (Forall printable) parts ->
  Forall printable (join sep parts).
Proof.
  intros Hsep. induction 1 as [|p ps Hp Hps IH]; [constructor|].
  cbn [join]. destruct ps as [|p' ps']; [exact Hp|].
  apply Forall_app; split; [exact Hp|].
  apply Forall_app; split; [exact Hsep|exact IH].
Qed.

Lemma dumps_dict_printable (d : list (str * str)) :
  Forall printable (dumps_dict d).
Proof.
  unfold dumps_dict.
  apply Forall_app; split; [apply lit_printable_check; reflexivity|].
  apply Forall_app; split; [|apply lit_printable_check; reflexivity].
  apply join_printable; [apply lit_printable_check; reflexivity|].
  apply Forall_forall. intros p Hp. apply list_elem_of_fmap in Hp as [kv [-> _]].
  apply Forall_app; split; [apply encode_basestring_ascii_printable|].
  apply Forall_app; split; [apply lit_printable_check; reflexivity|].
  apply encode_basestring_ascii_printable.
Qed.

(** The text [json.dumps] returns has no character outside of the space to
    the tilde: in particular no line break. *)
Lemma dumps_printable (d : list (str * value)) : Forall printable (dumps d).
Proof.
  unfold dumps.
  apply Forall_app; split; [apply lit_printable_check; reflexivity|].
  apply Forall_app; split; [|apply lit_printable_check; reflexivity].
  apply join_printable; [apply lit_printable_check; reflexivity|].
  apply Forall_forall. intros p Hp. apply list_elem_of_fmap in Hp as [kv [-> _]].
  apply Forall_app; split; [apply encode_basestring_ascii_printable|].
  apply Forall_app; split; [apply lit_printable_check; reflexivity|].
  destruct (kv.2); [apply encode_basestring_ascii_printable
                   |apply dumps_dict_printable].
Qed.

End JsonFacts.

(** ** Lists of queues *)

Lemma list_remove_middle (x : loc) (l1 l2 : list loc) :
  x ∉ l1 -> list_remove x (l1 ++ x :: l2) = Some (l1 ++ l2).
Proof.
  induction l1 as [|y l1 IH]; intros Hx; cbn [app list_remove].
  - rewrite decide_True by reflexivity. reflexivity.
  - apply not_elem_of_cons in Hx as [Hxy Hx].
    rewrite decide_False by congruence. rewrite IH by exact Hx. reflexivity.
Qed.






(** ** Delivery *)

Section Delivery.
Variable message : str.

Lemma healthy_deliver (h : gmap loc Queue) (q q' : loc) :
  healthy (deliver message h q) q' = healthy h q'.
Proof.
  unfold deliver, healthy.
  destruct (h !! q) as [o|] eqn:Eq; [|reflexivity].
  destruct (put_raises o) eqn:Er; [reflexivity|].
  destruct (decide (q = q')) as [<-|Hne].
  - rewrite lookup_insert_eq, Eq. cbn. rewrite Er. reflexivity.
  - rewrite lookup_insert_ne by exact Hne. reflexivity.
Qed.

Lemma filter_healthy_deliver (h : gmap loc Queue) (q : loc) (l : list loc) :
  List.filter (healthy (deliver message h q)) l = List.filter (healthy h) l.
Proof. apply List.filter_ext. intros q'. apply healthy_deliver. Qed.

Lemma deliver_lookup_ne (h : gmap loc Queue) (q q' : loc) :
  q <> q' -> deliver message h q !! q' = h !! q'.
Proof.
  intros Hne. unfold deliver.
  destruct (h !! q) as [o|]; [|reflexivity].
  destruct (put_raises o); [reflexivity|].
  apply lookup_insert_ne. exact Hne.
Qed.

Lemma deliver_unhealthy (h : gmap loc Queue) (q : loc) :
  healthy h q = false -> deliver message h q = h.
Proof.
  unfold healthy, deliver. destruct (h !! q) as [o|]; [|reflexivity].
  destruct (put_raises o); [reflexivity|discriminate].
Qed.

Lemma deliver_healthy (h : gmap loc Queue) (q : loc) (o : Queue) :
  h !! q = Some o -> put_raises o = false ->
  deliver message h q !! q
  = Some {| items := items o ++ [message]; put_raises := false |}.
Proof.
  intros Hq Hr. unfold deliver. rewrite Hq, Hr. apply lookup_insert_eq.
Qed.

Lemma healthy_fold_deliver (l : list loc) (h : gmap loc Queue) (q : loc) :
  healthy (fold_left (deliver message) l h) q = healthy h q.
Proof.
  revert h. induction l as [|x l IH]; intros h; [reflexivity|].
  cbn [fold_left]. rewrite IH. apply healthy_deliver.
Qed.

Lemma fold_deliver_absent (l : list loc) (h : gmap loc Queue) (q : loc) :
  q ∉ l -> fold_left (deliver message) l h !! q = h !! q.
Proof.
  revert h. induction l as [|x l IH]; intros h Hq; [reflexivity|].
  apply not_elem_of_cons in Hq as [Hne Hq]. cbn [fold_left].
  rewrite IH by exact Hq. apply deliver_lookup_ne. congruence.
Qed.

Lemma fold_deliver_unhealthy (l : list loc) (h : gmap loc Queue) (q : loc) :
  healthy h q = false -> fold_left (deliver message) l h !! q = h !! q.
Proof.
  revert h. induction l as [|x l IH]; intros h Hq; [reflexivity|].
  cbn [fold_left]. rewrite IH by (rewrite healthy_deliver; exact Hq).
  destruct (decide (x = q)) as [->|Hne].
  - rewrite deliver_unhealthy by exact Hq. reflexivity.
  - apply deliver_lookup_ne. exact Hne.
Qed.

Lemma fold_deliver_present (l : list loc) (h : gmap loc Queue) (q : loc)
    (o : Queue) :
  NoDup l -> q ∈ l -> h !! q = Some o -> put_raises o = false ->
  fold_left (deliver message) l h !! q
  = Some {| items := items o ++ [message]; put_raises := false |}.
Proof.
  revert h. induction l as [|x l IH]; intros h Hnd Hin Hq Hr;
    [inversion Hin|].
  apply NoDup_cons in Hnd as [Hx Hnd]. cbn [fold_left].
  destruct (decide (x = q)) as [->|Hne].
  - rewrite fold_deliver_absent by exact Hx.
    apply deliver_healthy; assumption.
  - apply elem_of_cons in Hin as [->|Hin]; [congruence|].
    apply IH; try assumption.
    rewrite deliver_lookup_ne by exact Hne. exact Hq.
Qed.

(** One turn of the loop of [notify_clients]. *)
Lemma notify_step (q : loc) (st : State) :
  try_except (Queue_put q message) (sse_clients_remove q) st
  = if healthy (heap st) q
    then (inr tt, set_heap (fun h => deliver message h q) st)
    else sse_clients_remove q st.
Proof.
  unfold try_except, Queue_put, healthy, deliver, set_heap.
  destruct (heap st !! q) as [o|]; [|reflexivity].
  destruct (put_raises o); reflexivity.
Qed.

(** The loop of [notify_clients] over the copy [l] of the list, when the
    part [p] of the copy has been gone through. *)
Lemma notify_loop (l p : list loc) (st : State) :
  sse_clients st = List.filter (healthy (heap st)) p ++ l ->
  for_each l
    (fun q => try_except (Queue_put q message) (sse_clients_remove q)) st
  = (inr tt,
     {| requests_log := requests_log st;
        sse_clients := List.filter (healthy (heap st)) (p ++ l);
        heap := fold_left (deliver message) l (heap st);
        clock := clock st |}).
Proof.
  revert p st. induction l as [|q l IH]; intros p st Hst.
  - cbn [for_each fold_left]. rewrite app_nil_r in *. rewrite <- Hst.
    destruct st; reflexivity.
  - cbn [for_each fold_left]. unfold mbind, M_bind. rewrite notify_step.
    destruct (healthy (heap st) q) eqn:Hq.
    + rewrite (IH (p ++ [q])).
      * cbn [set_heap requests_log sse_clients heap clock].
        rewrite filter_healthy_deliver, <- app_assoc. reflexivity.
      * cbn [set_heap sse_clients heap]. rewrite filter_healthy_deliver.
        rewrite List.filter_app. cbn [List.filter]. rewrite Hq, Hst, <- app_assoc.
        reflexivity.
    + unfold sse_clients_remove. rewrite Hst.
      rewrite list_remove_middle.
      2:{ rewrite list_elem_of_In, List.filter_In. intros [_ Hh]. congruence. }
      rewrite (IH (p ++ [q])).
      * cbn [set_sse_clients requests_log sse_clients heap clock].
        rewrite deliver_unhealthy by exact Hq. rewrite <- app_assoc.
        reflexivity.
      * cbn [set_sse_clients sse_clients heap].
        rewrite List.filter_app. cbn [List.filter]. rewrite Hq, app_nil_r.
        reflexivity.
Qed.

End Delivery.

(** ** Publishing *)

Lemma notify_clients_run (e : Event) (st : State) :
  notify_clients e st
  = (inr tt,
     {| requests_log := requests_log st;
        sse_clients := List.filter (healthy (heap st)) (sse_clients st);
        heap := fold_left (deliver (sse_message e)) (sse_clients st) (heap st);
        clock := clock st |}).
Proof.
  unfold notify_clients. cbv zeta.
  exact (notify_loop (sse_message e) (sse_clients st) [] st eq_refl).
Qed.

Lemma fanned_out_nil (st : State) : fanned_out [] st st.
Proof.
  split; try tauto; try reflexivity.
  intros _ q _ _. rewrite app_nil_r. reflexivity.
Qed.

Lemma filter_all (f : loc -> bool) (l : list loc) :
  (forall q, q ∈ l -> f q = true) -> List.filter f l = l.
Proof.
  induction l as [|x l IH]; intros H; [reflexivity|].
  cbn [List.filter]. rewrite (H x) by left. f_equal. apply IH.
  intros q Hq. apply H. right. exact Hq.
Qed.

Lemma fanned_out_app (m1 m2 : list str) (st st1 st2 : State) :
  fanned_out m1 st st1 -> fanned_out m2 st1 st2 ->
  fanned_out (m1 ++ m2) st st2.
Proof.
  intros F1 F2. split.
  - rewrite (fo_log _ _ _ F2). apply (fo_log _ _ _ F1).
  - rewrite (fo_clock _ _ _ F2). apply (fo_clock _ _ _ F1).
  - intros q. rewrite (fo_health _ _ _ F2). apply (fo_health _ _ _ F1).
  - intros q Hq. apply (fo_kept _ _ _ F1), (fo_kept _ _ _ F2), Hq.
  - intros Hnd. apply (fo_nodup _ _ _ F2), (fo_nodup _ _ _ F1), Hnd.
  - intros q Hq Hh. apply (fo_alive _ _ _ F2).
    + apply (fo_alive _ _ _ F1); assumption.
    + rewrite (fo_health _ _ _ F1). exact Hh.
  - intros Hnd q Hq Hh.
    rewrite (fo_received _ _ _ F2).
    + rewrite (fo_received _ _ _ F1) by assumption. symmetry. apply app_assoc.
    + apply (fo_nodup _ _ _ F1), Hnd.
    + apply (fo_alive _ _ _ F1); assumption.
    + rewrite (fo_health _ _ _ F1). exact Hh.
  - intros q Hq. rewrite (fo_absent _ _ _ F2).
    + apply (fo_absent _ _ _ F1), Hq.
    + intros Hq1. apply Hq, (fo_kept _ _ _ F1), Hq1.
  - intros q Hh. rewrite (fo_dead _ _ _ F2).
    + apply (fo_dead _ _ _ F1), Hh.
    + rewrite (fo_health _ _ _ F1). exact Hh.
  - intros Hne q Hq. destruct m1 as [|m m1].
    + rewrite <- (fo_health _ _ _ F1). apply (fo_reaped _ _ _ F2); assumption.
    + apply (fo_reaped _ _ _ F1); [discriminate|].
      apply (fo_kept _ _ _ F2), Hq.
  - intros Hall. pose proof (fo_same _ _ _ F1 Hall) as E1.
    rewrite <- E1. apply (fo_same _ _ _ F2). intros q Hq.
    rewrite (fo_health _ _ _ F1). apply Hall. rewrite <- E1. exact Hq.
Qed.

(** [notify_clients] returns, and this is the state it leaves. *)
Lemma notify_clients_fanned_out (e : Event) (st : State) :
  exists st', notify_clients e st = (inr tt, st')
              /\ fanned_out [sse_message e] st st'.
Proof.
  eexists. split; [apply notify_clients_run|].
  split; cbn [requests_log sse_clients heap clock]; try reflexivity.
  - intros q. apply healthy_fold_deliver.
  - intros q. rewrite !list_elem_of_In, List.filter_In. tauto.
  - intros Hnd. apply NoDup_ListNoDup, List.NoDup_filter, NoDup_ListNoDup, Hnd.
  - intros q Hq Hh. rewrite list_elem_of_In, List.filter_In.
    rewrite <- list_elem_of_In. tauto.
  - intros Hnd q Hq Hh. unfold queue_items, healthy in *.
    cbn [heap]. destruct (heap st !! q) as [o|] eqn:Eo; [|discriminate].
    rewrite (fold_deliver_present _ _ _ _ o Hnd Hq Eo); [reflexivity|].
    destruct (put_raises o); [discriminate|reflexivity].
  - intros q Hq. apply fold_deliver_absent, Hq.
  - intros q Hh. apply fold_deliver_unhealthy, Hh.
  - intros _ q. rewrite list_elem_of_In, List.filter_In. tauto.
  - intros Hall. apply filter_all, Hall.
Qed.

Lemma publish_all_fanned_out (es : list Event) (st : State) :
  exists st', publish_all es st = (inr tt, st')
              /\ fanned_out (map sse_message es) st st'.
Proof.
  revert st. induction es as [|e es IH]; intros st.
  - exists st. split; [reflexivity|apply fanned_out_nil].
  - destruct (notify_clients_fanned_out e st) as (st1 & Hrun & F1).
    destruct (IH st1) as (st2 & Hrun2 & F2).
    exists st2. split.
    + unfold publish_all in *. cbn [for_each]. unfold mbind, M_bind, publish.
      rewrite Hrun. exact Hrun2.
    + exact (fanned_out_app [sse_message e] _ _ _ _ F1 F2).
Qed.

(** ** The store *)

Lemma append_all_run (es : list Event) (st : State) :
  append_all es st
  = (inr tt,
     set_requests_log
       (fun d => fold_left (fun d e => Deque.appendleft MAXLEN e d) es d) st).
Proof.
  revert st. induction es as [|e es IH]; intros st.
  - destruct st; reflexivity.
  - unfold append_all in *. cbn [for_each]. unfold mbind, M_bind.
    unfold append at 1, requests_log_appendleft. rewrite IH.
    destruct st; reflexivity.
Qed.

Lemma take_app_take {A : Type} (n : nat) (l1 l2 : list A) :
  take n (l1 ++ take n l2) = take n (l1 ++ l2).
Proof. rewrite !take_app, take_take. do 2 f_equal. lia. Qed.

Lemma fold_appendleft_take (es : list Event) (d : list Event) :
  (length d <= MAXLEN)%nat ->
  fold_left (fun d e => Deque.appendleft MAXLEN e d) es d
  = take MAXLEN (rev es ++ d).
Proof.
  revert d. induction es as [|e es IH]; intros d Hd.
  - cbn [fold_left rev app]. symmetry. apply take_ge. exact Hd.
  - cbn [fold_left rev]. rewrite IH by (apply appendleft_length; exact Hd).
    rewrite appendleft_take by exact Hd. rewrite <- app_assoc. cbn [app].
    apply take_app_take.
Qed.

(** The snapshot after appending [es] to a store within its capacity. *)
Lemma snapshot_after_appends (es : list Event) (st : State) :
  (length (requests_log st) <= MAXLEN)%nat ->
  (append_all es ;; snapshot) st
  = (inr (take MAXLEN (rev es ++ requests_log st)),
     set_requests_log (fun d => take MAXLEN (rev es ++ d)) st).
Proof.
  intros Hd. unfold mbind, M_bind. rewrite append_all_run.
  unfold snapshot, get_requests, Deque.to_list, set_requests_log.
  cbn [requests_log]. rewrite fold_appendleft_take by exact Hd. reflexivity.
Qed.

(** * The claims *)

(** C1: for every sequence of at most 100 appended events, the snapshot
    (the result of [get_requests]) holds exactly as many events as were
    appended and is the reverse of the insertion order; appending A, B, C in
    that order gives the snapshot [C, B, A]. *)
Theorem snapshot_is_reverse_of_appends (st : State) (es : list Event) :
  requests_log st = [] -> (length es <= 100)%nat ->
  (exists st', (append_all es ;; snapshot) st = (inr (rev es), st'))
  /\ length (rev es) = length es
  /\ (forall A B C : Event,
        fst ((append A ;; append B ;; append C ;; snapshot) st)
        = inr [C; B; A]).
Proof.
  intros Hempty Hlen. split; [|split].
  - eexists. rewrite snapshot_after_appends by (rewrite Hempty; cbn; lia).
    rewrite Hempty, app_nil_r.
    rewrite take_ge by (rewrite length_rev; exact Hlen). reflexivity.
  - apply length_rev.
  - intros A B C. unfold mbind, M_bind, append, requests_log_appendleft,
      snapshot, get_requests, set_requests_log. cbn [fst requests_log].
    rewrite Hempty. reflexivity.
Qed.

Lemma snapshot_is_reverse_of_appends_witness :
  requests_log initial = []
  /\ (length [sample_event 1; sample_event 2; sample_event 3] <= 100)%nat
  /\ exists st',
       (append_all [sample_event 1; sample_event 2; sample_event 3] ;; snapshot)
         initial
       = (inr [sample_event 3; sample_event 2; sample_event 1], st').
Proof.
  split; [reflexivity|]. split; [cbn; lia|].
  apply (snapshot_is_reverse_of_appends initial
           [sample_event 1; sample_event 2; sample_event 3]);
    [reflexivity|cbn; lia].
Defined.

(** C2: for every sequence of more than 100 appended events the snapshot
    holds exactly 100 events, the 100 most recent ones, newest first; the
    store never holds more than 100 events; an insertion at capacity evicts
    the oldest entry; after E1..E101 the snapshot is [E101, ..., E2]. *)
Theorem snapshot_keeps_most_recent_hundred (st : State) (es : list Event) :
  requests_log st = [] -> (100 < length es)%nat ->
  (exists st', (append_all es ;; snapshot) st
               = (inr (rev (drop (length es - 100) es)), st'))
  /\ length (rev (drop (length es - 100) es)) = 100%nat
  /\ (forall es' : list Event,
        (length (requests_log (append_all es' st).2) <= 100)%nat)
  /\ (forall (st0 : State) (e : Event),
        length (requests_log st0) = 100%nat ->
        requests_log (append e st0).2 = e :: removelast (requests_log st0))
  /\ (forall E : nat -> Event,
        fst ((append_all (map E (seq 1 101)) ;; snapshot) st)
        = inr (map E (rev (seq 2 100)))).
Proof.
  intros Hempty Hlen.
  assert (Hcap : (length (requests_log st) <= MAXLEN)%nat)
    by (rewrite Hempty; cbn; lia).
  split; [|split; [|split; [|split]]].
  - eexists. rewrite snapshot_after_appends by exact Hcap.
    rewrite Hempty, app_nil_r. unfold MAXLEN. rewrite firstn_rev.
    reflexivity.
  - rewrite length_rev, length_drop. lia.
  - intros es'. rewrite append_all_run. cbn [snd set_requests_log requests_log].
    rewrite fold_appendleft_take by exact Hcap.
    rewrite length_take. unfold MAXLEN. lia.
  - intros st0 e H0. unfold append, requests_log_appendleft, set_requests_log.
    cbn [snd requests_log]. unfold Deque.appendleft. cbv zeta.
    cbn [length]. rewrite H0.
    destruct (requests_log st0) as [|e0 d]; [discriminate|reflexivity].
  - intros E. rewrite snapshot_after_appends by exact Hcap.
    rewrite Hempty, app_nil_r. reflexivity.
Qed.

Lemma snapshot_keeps_most_recent_hundred_witness :
  exists st',
    (append_all (map (fun n => sample_event (N.of_nat n)) (seq 1 101))
     ;; snapshot) initial
    = (inr (rev (drop 1 (map (fun n => sample_event (N.of_nat n))
                           (seq 1 101)))), st').
Proof.
  apply (snapshot_keeps_most_recent_hundred initial
           (map (fun n => sample_event (N.of_nat n)) (seq 1 101)));
    [reflexivity|rewrite length_map, length_seq; lia].
Defined.

(** [subscribe] makes a new empty queue and registers it last. *)
Lemma subscribe_run (st : State) :
  subscribe st
  = (inr (fresh (dom (heap st))),
     {| requests_log := requests_log st;
        sse_clients := sse_clients st ++ [fresh (dom (heap st))];
        heap := <[fresh (dom (heap st)) :=
                    {| items := []; put_raises := false |}]> (heap st);
        clock := clock st |}).
Proof. reflexivity. Qed.

Lemma healthy_put_ok (h : gmap loc Queue) (q : loc) (o : Queue) :
  h !! q = Some o -> put_raises o = false -> healthy h q = true.
Proof. intros Hq Hr. unfold healthy. rewrite Hq, Hr. reflexivity. Qed.

Lemma healthy_put_raises (h : gmap loc Queue) (q : loc) (o : Queue) :
  h !! q = Some o -> put_raises o = true -> healthy h q = false.
Proof. intros Hq Hr. unfold healthy. rewrite Hq, Hr. reflexivity. Qed.

Lemma healthy_in_dom (h : gmap loc Queue) (q : loc) :
  healthy h q = true -> q ∈ dom h.
Proof.
  unfold healthy. intros H. apply elem_of_dom.
  destruct (h !! q); [eauto|discriminate].
Qed.

Lemma subscribe_sound (st : State) :
  sound_hub st ->
  exists S st', subscribe st = (inr S, st')
    /\ (S ∉ sse_clients st)
    /\ sse_clients st' = sse_clients st ++ [S]
    /\ queue_items st' S = []
    /\ sound_hub st'
    /\ (forall q, q ∈ sse_clients st -> queue_items st' q = queue_items st q).
Proof.
  intros [Hnd Hall]. eexists _, _. split; [apply subscribe_run|].
  set (S := fresh (dom (heap st))).
  assert (HS : S ∉ dom (heap st)) by apply is_fresh.
  assert (Hout : S ∉ sse_clients st).
  { intros Hin. apply HS, healthy_in_dom, Hall, Hin. }
  cbn [sse_clients heap]. unfold queue_items. cbn [heap].
  split; [exact Hout|]. split; [reflexivity|].
  split; [rewrite lookup_insert_eq; reflexivity|]. split; [split|].
  - cbn [sse_clients]. apply NoDup_app. split; [exact Hnd|]. split; [|apply NoDup_singleton].
    intros q Hq Hq'. apply list_elem_of_singleton in Hq' as ->. tauto.
  - cbn [sse_clients heap]. intros q Hq. unfold healthy.
    apply elem_of_app in Hq as [Hq|Hq].
    + rewrite lookup_insert_ne by (intros <-; tauto). apply Hall, Hq.
    + apply list_elem_of_singleton in Hq as ->.
      rewrite lookup_insert_eq. reflexivity.
  - intros q Hq. rewrite lookup_insert_ne by (intros <-; tauto). reflexivity.
Qed.

Lemma publish_sound (e : Event) (st : State) :
  sound_hub st ->
  exists st', publish e st = (inr tt, st')
    /\ sse_clients st' = sse_clients st
    /\ sound_hub st'
    /\ (forall q, q ∈ sse_clients st ->
          queue_items st' q = queue_items st q ++ [sse_message e]).
Proof.
  intros [Hnd Hall].
  destruct (notify_clients_fanned_out e st) as (st' & Hrun & F).
  pose proof (fo_same _ _ _ F Hall) as Hsame.
  exists st'. split; [exact Hrun|]. split; [exact Hsame|]. split; [split|].
  - rewrite Hsame. exact Hnd.
  - intros q Hq. rewrite (fo_health _ _ _ F). apply Hall.
    rewrite <- Hsame. exact Hq.
  - intros q Hq. apply (fo_received _ _ _ F Hnd q Hq), Hall, Hq.
Qed.

(** C3: a publish while K subscribers are registered puts exactly one copy
    of the event's message in each of the K queues, after the messages the
    queue already holds, so each queue holds what it received in publish
    order; a queue registered later starts empty: after subscribe S1,
    publish E1, subscribe S2, publish E2 the queue of S1 holds [E1, E2] and
    the queue of S2 holds [E2]. *)
Theorem publish_reaches_every_subscriber (st : State) :
  NoDup (sse_clients st) ->
  (forall q, q ∈ sse_clients st ->
     exists o, heap st !! q = Some o /\ put_raises o = false) ->
  (forall e : Event, exists st',
      publish e st = (inr tt, st')
      /\ sse_clients st' = sse_clients st
      /\ (forall q, q ∈ sse_clients st ->
            queue_items st' q = queue_items st q ++ [sse_message e])
      /\ (forall q, q ∉ sse_clients st -> heap st' !! q = heap st !! q))
  /\ (forall es : list Event, exists st',
      publish_all es st = (inr tt, st')
      /\ sse_clients st' = sse_clients st
      /\ (forall q, q ∈ sse_clients st ->
            queue_items st' q = queue_items st q ++ map sse_message es))
  /\ (exists S st', subscribe st = (inr S, st')
      /\ (S ∉ sse_clients st)
      /\ sse_clients st' = sse_clients st ++ [S]
      /\ queue_items st' S = [])
  /\ (forall E1 E2 : Event, exists S1 S2 st',
      (S1 ← subscribe; publish E1 ;; S2 ← subscribe; publish E2 ;;
       mret (S1, S2)) st = (inr (S1, S2), st')
      /\ queue_items st' S1 = [sse_message E1; sse_message E2]
      /\ queue_items st' S2 = [sse_message E2]
      /\ (forall q, q ∈ sse_clients st ->
            queue_items st' q
            = queue_items st q ++ [sse_message E1; sse_message E2])).
Proof.
  intros Hnd Hok.
  assert (Hall : forall q, q ∈ sse_clients st -> healthy (heap st) q = true).
  { intros q Hq. destruct (Hok q Hq) as (o & Ho & Hr).
    exact (healthy_put_ok _ _ _ Ho Hr). }
  split; [|split; [|split]].
  - intros e. destruct (notify_clients_fanned_out e st) as (st' & Hrun & F).
    exists st'. split; [exact Hrun|]. split; [apply (fo_same _ _ _ F Hall)|].
    split.
    + intros q Hq. apply (fo_received _ _ _ F Hnd q Hq), Hall, Hq.
    + apply (fo_absent _ _ _ F).
  - intros es. destruct (publish_all_fanned_out es st) as (st' & Hrun & F).
    exists st'. split; [exact Hrun|]. split; [apply (fo_same _ _ _ F Hall)|].
    intros q Hq. apply (fo_received _ _ _ F Hnd q Hq), Hall, Hq.
  - destruct (subscribe_sound st (conj Hnd Hall))
      as (S & st' & R & Hnew & C & Q & _).
    exists S, st'. tauto.
  - intros E1 E2.
    destruct (subscribe_sound st (conj Hnd Hall))
      as (S1 & st1 & R1 & Hnew1 & C1 & Q1 & W1 & K1).
    destruct (publish_sound E1 st1 W1) as (st2 & R2 & C2 & W2 & Q2).
    destruct (subscribe_sound st2 W2)
      as (S2 & st3 & R3 & Hnew3 & C3 & Q3 & W3 & K3).
    destruct (publish_sound E2 st3 W3) as (st4 & R4 & C4 & W4 & Q4).
    assert (In1 : S1 ∈ sse_clients st1) by (rewrite C1; set_solver).
    assert (In2 : S1 ∈ sse_clients st2) by (rewrite C2; exact In1).
    assert (In3 : S1 ∈ sse_clients st3) by (rewrite C3; set_solver).
    assert (In3' : S2 ∈ sse_clients st3) by (rewrite C3; set_solver).
    exists S1, S2, st4. split; [|split; [|split]].
    + unfold mbind, M_bind. rewrite R1, R2, R3, R4. reflexivity.
    + rewrite (Q4 S1 In3), (K3 S1 In2), (Q2 S1 In1), Q1. reflexivity.
    + rewrite (Q4 S2 In3'), Q3. reflexivity.
    + intros q Hq.
      assert (q ∈ sse_clients st1) as I1 by (rewrite C1; set_solver).
      assert (q ∈ sse_clients st2) as I2 by (rewrite C2; exact I1).
      assert (q ∈ sse_clients st3) as I3 by (rewrite C3; set_solver).
      rewrite (Q4 q I3), (K3 q I2), (Q2 q I1), (K1 q Hq), <- app_assoc.
      reflexivity.
Qed.

Lemma publish_reaches_every_subscriber_witness :
  exists S1 S2 st',
    (S1 ← subscribe; publish (sample_event 1) ;;
     S2 ← subscribe; publish (sample_event 2) ;; mret (S1, S2)) initial
    = (inr (S1, S2), st')
    /\ queue_items st' S1
       = [sse_message (sample_event 1); sse_message (sample_event 2)]
    /\ queue_items st' S2 = [sse_message (sample_event 2)]
    /\ (forall q, q ∈ sse_clients initial ->
          queue_items st' q
          = queue_items initial q
            ++ [sse_message (sample_event 1); sse_message (sample_event 2)]).
Proof.
  apply (publish_reaches_every_subscriber initial).
  - apply NoDup_nil_2.
  - intros q Hq. inversion Hq.
Defined.

(** C4: a registered queue whose [put] fails is removed from the registry
    by the first publish, which returns normally; the queue receives
    nothing then or later, and every other registered queue that accepts
    messages stays registered and receives each event published. *)
Theorem failing_subscriber_is_removed
    (st : State) (b : loc) (o : Queue) (e : Event) (es : list Event) :
  NoDup (sse_clients st) -> b ∈ sse_clients st ->
  heap st !! b = Some o -> put_raises o = true ->
  exists st1 st2,
    publish e st = (inr tt, st1)
    /\ (b ∉ sse_clients st1) /\ heap st1 !! b = Some o
    /\ publish_all es st1 = (inr tt, st2)
    /\ (b ∉ sse_clients st2) /\ heap st2 !! b = Some o
    /\ (forall (q : loc) (o' : Queue),
          q ∈ sse_clients st -> heap st !! q = Some o' ->
          put_raises o' = false ->
          q ∈ sse_clients st1
          /\ queue_items st1 q = items o' ++ [sse_message e]
          /\ q ∈ sse_clients st2
          /\ queue_items st2 q
             = items o' ++ sse_message e :: map sse_message es).
Proof.
  intros Hnd Hb Ho Hr.
  pose proof (healthy_put_raises _ _ _ Ho Hr) as Hdead.
  destruct (notify_clients_fanned_out e st) as (st1 & R1 & F1).
  destruct (publish_all_fanned_out es st1) as (st2 & R2 & F2).
  assert (Hb1 : b ∉ sse_clients st1).
  { intros Hin. pose proof (fo_reaped _ _ _ F1 ltac:(discriminate) b Hin).
    congruence. }
  exists st1, st2.
  split; [|split; [|split; [|split; [|split; [|split]]]]];
    [..|intros q o' H H0 H1; split; [|split; [|split]]].
  - exact R1.
  - exact Hb1.
  - rewrite (fo_dead _ _ _ F1 b Hdead). exact Ho.
  - exact R2.
  - intros Hin. apply Hb1, (fo_kept _ _ _ F2), Hin.
  - rewrite (fo_absent _ _ _ F2 b Hb1), (fo_dead _ _ _ F1 b Hdead). exact Ho.
  - apply (fo_alive _ _ _ F1); [assumption|].
    eapply healthy_put_ok; eassumption.
  - rewrite (fo_received _ _ _ F1 Hnd q); [|assumption|].
    + unfold queue_items. rewrite H0. reflexivity.
    + eapply healthy_put_ok; eassumption.
  - apply (fo_alive _ _ _ F2).
    + apply (fo_alive _ _ _ F1); [assumption|].
      eapply healthy_put_ok; eassumption.
    + rewrite (fo_health _ _ _ F1). eapply healthy_put_ok; eassumption.
  - pose proof (healthy_put_ok _ _ _ H0 H1) as Hq.
    rewrite (fo_received _ _ _ F2 (fo_nodup _ _ _ F1 Hnd) q).
    + rewrite (fo_received _ _ _ F1 Hnd q H Hq).
      unfold queue_items. rewrite H0, <- app_assoc. reflexivity.
    + apply (fo_alive _ _ _ F1); assumption.
    + rewrite (fo_health _ _ _ F1). exact Hq.
Qed.

Lemma sample_hub_NoDup : NoDup (sse_clients sample_hub).
Proof.
  apply NoDup_cons. split; [|apply NoDup_singleton].
  intros H. apply list_elem_of_singleton in H. discriminate.
Defined.

Lemma failing_subscriber_is_removed_witness :
  exists st1 st2,
    publish (sample_event 1) sample_hub = (inr tt, st1)
    /\ (1%nat ∉ sse_clients st1)
    /\ heap st1 !! 1%nat = Some {| items := []; put_raises := true |}
    /\ publish_all [sample_event 2; sample_event 3] st1 = (inr tt, st2)
    /\ (1%nat ∉ sse_clients st2)
    /\ heap st2 !! 1%nat = Some {| items := []; put_raises := true |}
    /\ (forall (q : loc) (o' : Queue),
          q ∈ sse_clients sample_hub -> heap sample_hub !! q = Some o' ->
          put_raises o' = false ->
          q ∈ sse_clients st1
          /\ queue_items st1 q = items o' ++ [sse_message (sample_event 1)]
          /\ q ∈ sse_clients st2
          /\ queue_items st2 q
             = items o' ++ sse_message (sample_event 1)
                 :: map sse_message [sample_event 2; sample_event 3]).
Proof.
  apply (failing_subscriber_is_removed sample_hub 1%nat
           {| items := []; put_raises := true |}).
  - exact sample_hub_NoDup.
  - right. left.
  - reflexivity.
  - reflexivity.
Defined.

(** ** Removal from the registry *)




(** ** The states the program reaches *)











(** ** The request handler *)

Lemma reserved_paths (path : str) :
  path ∈ RESERVED
  <-> path = lit "" \/ path = lit "events" \/ path = lit "api/requests".
Proof.
  unfold RESERVED. rewrite !elem_of_cons, elem_of_nil. tauto.
Qed.

Lemma appendleft_head (e : Event) (d : list Event) :
  exists rest, Deque.appendleft MAXLEN e d = e :: rest.
Proof.
  destruct d as [|e' d]; [exists []; reflexivity|].
  unfold Deque.appendleft. cbv zeta.
  destruct (MAXLEN <? length (e :: e' :: d))%nat; [|eauto].
  exists (removelast (e' :: d)). reflexivity.
Qed.

(** What [catch_all] does with a path that is not reserved. *)
Lemma catch_all_logged (now : str) (request : Request) (path : str)
    (st : State) :
  path ∉ RESERVED ->
  exists st',
    catch_all now request path st
    = (inr [ (lit "status", lit "logged");
             (lit "message", lit "Request has been logged successfully");
             (lit "timestamp", now) ], st')
    /\ notify_clients (format_request now request (req_body request))
         (set_requests_log
            (Deque.appendleft MAXLEN
               (format_request now request (req_body request))) st)
       = (inr tt, st')
    /\ requests_log st'
       = Deque.appendleft MAXLEN
           (format_request now request (req_body request)) (requests_log st)
    /\ fanned_out
         [sse_message (format_request now request (req_body request))]
         (set_requests_log
            (Deque.appendleft MAXLEN
               (format_request now request (req_body request))) st) st'.
Proof.
  intros Hpath. unfold catch_all. rewrite decide_False by exact Hpath.
  cbv zeta. unfold mbind, M_bind, requests_log_appendleft.
  set (ev := format_request now request (req_body request)).
  destruct (notify_clients_fanned_out ev
              (set_requests_log (Deque.appendleft MAXLEN ev) st))
    as (st' & R & F).
  exists st'. rewrite R. split; [reflexivity|]. split; [reflexivity|].
  split; [apply (fo_log _ _ _ F)|exact F].
Qed.

(** C6: a body that is the UTF-8 encoding of a text becomes that text in
    the event.  Every other body is decoded all the same (the decoder is a
    total function), and the text has the replacement marker at the invalid
    positions: cut the bytes in encodings of code points and maximal
    subparts of ill-formed sequences; the text has the code point of each
    encoding and one marker for each subpart, in their order, and nothing
    else (a byte that starts no encoding, a sequence broken by the next
    byte, a sequence cut by the end of the body).  A body that is not valid
    UTF-8 gives a text that holds the marker.  An empty body gives the
    empty string. *)
Theorem body_is_decoded_with_replacement (now : str) (request : Request) :
  (forall s : str, Forall Utf8.scalar s ->
     body (format_request now request (Utf8.encode s)) = s)
  /\ (forall b : bytes,
        Utf8.decodes b (body (format_request now request b)))
  /\ (forall (b : bytes) (s : str),
        Utf8.decodes b s -> s = body (format_request now request b))
  /\ (forall (s1 : str) (p rest : bytes),
        Forall Utf8.scalar s1 -> Utf8.maximal_subpart p rest ->
        body (format_request now request (Utf8.encode s1 ++ p ++ rest))
        = s1 ++ Utf8.REPLACEMENT :: body (format_request now request rest))
  /\ (forall b : bytes, ~ Utf8.valid b ->
        In Utf8.REPLACEMENT (body (format_request now request b)))
  /\ (forall (s1 s2 : str) (x : N),
        Forall Utf8.scalar s1 -> Forall Utf8.scalar s2 ->
        (0x80 <= x /\ x < 0xC2) \/ 0xF5 <= x ->
        body (format_request now request
                (Utf8.encode s1 ++ x :: Utf8.encode s2))
        = s1 ++ Utf8.REPLACEMENT :: s2)
  /\ body (format_request now request [0xE9; 0x20; 0x41])
     = [Utf8.REPLACEMENT; 0x20; 0x41]
  /\ body (format_request now request [0x61; 0xE2; 0x82])
     = [0x61; Utf8.REPLACEMENT]
  /\ body (format_request now request [0xFF; 0x61; 0xC3; 0xFE; 0xC3; 0xA9])
     = [Utf8.REPLACEMENT; 0x61; Utf8.REPLACEMENT; Utf8.REPLACEMENT; 0xE9]
  /\ body (format_request now request []) = [].
Proof.
  assert (Hbody : forall b : bytes,
            body (format_request now request b) = Utf8.decode_replace b).
  { intros [|c b]; reflexivity. }
  split; [|split; [|split; [|split; [|split; [|split; [|split; [|split;
    [|split]]]]]]]].
  - intros s Hs. rewrite Hbody. apply Utf8Facts.decode_encode, Hs.
  - intros b. rewrite Hbody. apply Utf8Spec.decode_meets_spec.
  - intros b s Hs. rewrite Hbody. apply Utf8Spec.decodes_unique, Hs.
  - intros s1 p rest Hs Hp. rewrite !Hbody.
    rewrite Utf8Facts.decode_encode_app by exact Hs.
    rewrite Utf8Spec.decode_maximal_subpart by exact Hp. reflexivity.
  - intros b Hb. rewrite Hbody. apply Utf8Facts.decode_invalid_marked, Hb.
  - intros s1 s2 x H1 H2 Hx. rewrite Hbody.
    rewrite Utf8Facts.decode_invalid_start by assumption.
    rewrite Utf8Facts.decode_encode by exact H2. reflexivity.
  - reflexivity.
  - reflexivity.
  - reflexivity.
  - reflexivity.
Qed.

Lemma body_is_decoded_with_replacement_witness :
  body (format_request (lit "2024-01-01T00:00:00") (sample_request 1)
          (Utf8.encode [0x61; 0x20AC] ++ 0xFF :: Utf8.encode [0x62]))
  = [0x61; 0x20AC] ++ Utf8.REPLACEMENT :: [0x62].
Proof.
  apply (proj1 (proj2 (proj2 (proj2 (proj2 (proj2
           (body_is_decoded_with_replacement (lit "2024-01-01T00:00:00")
              (sample_request 1)))))))).
  - repeat constructor; unfold Utf8.scalar; lia.
  - repeat constructor; unfold Utf8.scalar; lia.
  - right. lia.
Defined.

(** C7: a request that reaches [catch_all] with a reserved path gets the
    notice that the path is internal, and the state is left as it was:
    nothing is added to the store, nothing is put in a queue. *)
Theorem reserved_path_is_not_logged
    (now : str) (request : Request) (path : str) (st : State) :
  path = lit "" \/ path = lit "events" \/ path = lit "api/requests" ->
  catch_all now request path st
  = (inr [(lit "message", lit "This is an internal endpoint")], st)
  /\ (catch_all now request path ;; snapshot) st = snapshot st
  /\ (forall q : loc,
        queue_items (catch_all now request path st).2 q = queue_items st q).
Proof.
  intros Hpath. apply reserved_paths in Hpath.
  assert (E : catch_all now request path st
              = (inr [(lit "message", lit "This is an internal endpoint")],
                 st)).
  { unfold catch_all. rewrite decide_True by exact Hpath. reflexivity. }
  split; [exact E|]. split.
  - unfold mbind, M_bind. rewrite E. reflexivity.
  - intros q. rewrite E. reflexivity.
Qed.

Lemma reserved_path_is_not_logged_witness :
  catch_all (lit "2024-01-01T00:00:00") (sample_request 1)
    (lit "api/requests") sample_hub
  = (inr [(lit "message", lit "This is an internal endpoint")], sample_hub)
  /\ (catch_all (lit "2024-01-01T00:00:00") (sample_request 1)
        (lit "api/requests") ;; snapshot) sample_hub
     = snapshot sample_hub
  /\ (forall q : loc,
        queue_items
          (catch_all (lit "2024-01-01T00:00:00") (sample_request 1)
             (lit "api/requests") sample_hub).2 q
        = queue_items sample_hub q).
Proof.
  apply reserved_path_is_not_logged. right. right. reflexivity.
Defined.

(** C9: for a request with a path that is not reserved, [catch_all] returns
    the dictionary with the status, the message and the timestamp, and the
    timestamp is that of the event just put at the head of the store. *)
Theorem logged_response_carries_timestamp
    (now : str) (request : Request) (path : str) (st : State) :
  path <> lit "" -> path <> lit "events" -> path <> lit "api/requests" ->
  exists (st' : State) (ev : Event) (rest : list Event),
    catch_all now request path st
    = (inr [ (lit "status", lit "logged");
             (lit "message", lit "Request has been logged successfully");
             (lit "timestamp", timestamp ev) ], st')
    /\ requests_log st' = ev :: rest
    /\ ev = format_request now request (req_body request).
Proof.
  intros H1 H2 H3.
  destruct (catch_all_logged now request path st) as (st' & R & _ & L & _).
  { rewrite reserved_paths. tauto. }
  destruct (appendleft_head
              (format_request now request (req_body request))
              (requests_log st)) as [rest Hrest].
  exists st', (format_request now request (req_body request)), rest.
  split; [exact R|]. split; [|reflexivity].
  rewrite L. exact Hrest.
Qed.

Lemma logged_response_carries_timestamp_witness :
  exists (st' : State) (ev : Event) (rest : list Event),
    catch_all (lit "2024-01-01T00:00:00") (sample_request 1) (lit "hook")
      sample_hub
    = (inr [ (lit "status", lit "logged");
             (lit "message", lit "Request has been logged successfully");
             (lit "timestamp", timestamp ev) ], st')
    /\ requests_log st' = ev :: rest
    /\ ev = format_request (lit "2024-01-01T00:00:00") (sample_request 1)
              (req_body (sample_request 1)).
Proof.
  apply logged_response_carries_timestamp; discriminate.
Defined.

(** C10: the test on the path is equality with one of the three reserved
    strings.  For every other path, those that extend a reserved one such
    as "events/x" and "api/requests/y" too, the event is built, put in the
    store and published to the registered queues. *)
Theorem unreserved_path_is_captured
    (now : str) (request : Request) (path : str) (st : State) :
  path <> lit "" -> path <> lit "events" -> path <> lit "api/requests" ->
  (exists st1 st',
     append (format_request now request (req_body request)) st = (inr tt, st1)
     /\ publish (format_request now request (req_body request)) st1
        = (inr tt, st')
     /\ fst (catch_all now request path st)
        = inr [ (lit "status", lit "logged");
                (lit "message", lit "Request has been logged successfully");
                (lit "timestamp", now) ]
     /\ snd (catch_all now request path st) = st'
     /\ requests_log st'
        = Deque.appendleft 100
            (format_request now request (req_body request)) (requests_log st)
     /\ (NoDup (sse_clients st) ->
         forall (q : loc) (o : Queue),
           q ∈ sse_clients st -> heap st !! q = Some o ->
           put_raises o = false ->
           queue_items st' q
           = items o
             ++ [sse_message
                   (format_request now request (req_body request))]))
  /\ (forall st0 : State,
        fst (catch_all now request (lit "events/x") st0)
        = inr [ (lit "status", lit "logged");
                (lit "message", lit "Request has been logged successfully");
                (lit "timestamp", now) ]
        /\ exists rest,
             requests_log (snd (catch_all now request (lit "events/x") st0))
             = format_request now request (req_body request) :: rest)
  /\ (forall st0 : State,
        fst (catch_all now request (lit "api/requests/y") st0)
        = inr [ (lit "status", lit "logged");
                (lit "message", lit "Request has been logged successfully");
                (lit "timestamp", now) ]
        /\ exists rest,
             requests_log
               (snd (catch_all now request (lit "api/requests/y") st0))
             = format_request now request (req_body request) :: rest).
Proof.
  intros H1 H2 H3. split; [|split].
  - destruct (catch_all_logged now request path st) as (st' & R & N & L & F).
    { rewrite reserved_paths. tauto. }
    eexists _, st'. split; [reflexivity|]. split; [exact N|].
    rewrite R. split; [reflexivity|]. split; [reflexivity|].
    split; [exact L|].
    intros Hnd q o Hq Ho Hr.
    rewrite (fo_received _ _ _ F Hnd q Hq (healthy_put_ok _ _ _ Ho Hr)).
    unfold queue_items. cbn [heap set_requests_log]. rewrite Ho. reflexivity.
  - intros st0.
    destruct (catch_all_logged now request (lit "events/x") st0)
      as (st' & R & _ & L & _).
    { rewrite reserved_paths. intros [H|[H|H]]; discriminate. }
    rewrite R. split; [reflexivity|]. cbn [snd]. rewrite L.
    apply appendleft_head.
  - intros st0.
    destruct (catch_all_logged now request (lit "api/requests/y") st0)
      as (st' & R & _ & L & _).
    { rewrite reserved_paths. intros [H|[H|H]]; discriminate. }
    rewrite R. split; [reflexivity|]. cbn [snd]. rewrite L.
    apply appendleft_head.
Qed.

Lemma unreserved_path_is_captured_witness :
  fst (catch_all (lit "2024-01-01T00:00:00") (sample_request 1)
         (lit "events/x") sample_hub)
  = inr [ (lit "status", lit "logged");
          (lit "message", lit "Request has been logged successfully");
          (lit "timestamp", lit "2024-01-01T00:00:00") ].
Proof.
  destruct (unreserved_path_is_captured (lit "2024-01-01T00:00:00")
              (sample_request 1) (lit "events/x") sample_hub)
    as [(st1 & st' & _ & _ & R & _) _]; [discriminate..|].
  exact R.
Defined.

(** ** The serving loop *)

Lemma events_turn_message (st : State) (q : loc) (m : str) (rest : list str)
    (r : bool) :
  heap st !! q = Some {| items := m :: rest; put_raises := r |} ->
  events_turn false q st
  = (inr (Yield m),
     set_heap (insert q {| items := rest; put_raises := r |}) st).
Proof.
  intros Hq. unfold events_turn, events_body, try_except_on, wait_for_get.
  unfold mbind, M_bind, mret, M_ret. rewrite Hq. reflexivity.
Qed.

Lemma events_turn_idle (st : State) (q : loc) (r : bool) :
  heap st !! q = Some {| items := []; put_raises := r |} ->
  events_turn false q st
  = (inr (Yield KEEP_ALIVE), set_clock (fun t => t + TIMEOUT) st).
Proof.
  intros Hq. unfold events_turn, events_body, try_except_on, wait_for_get.
  unfold mbind, M_bind, mret, M_ret. rewrite Hq. reflexivity.
Qed.

Lemma events_turns_idle (n : nat) (st : State) (q : loc) (r : bool) :
  heap st !! q = Some {| items := []; put_raises := r |} ->
  exists st',
    events_turns n q st = (inr (repeat (Yield KEEP_ALIVE) n), st')
    /\ clock st' = clock st + TIMEOUT * N.of_nat n
    /\ heap st' = heap st
    /\ sse_clients st' = sse_clients st
    /\ requests_log st' = requests_log st.
Proof.
  revert st. induction n as [|n IH]; intros st Hq.
  - exists st. split; [reflexivity|]. rewrite N.mul_0_r, N.add_0_r. tauto.
  - destruct (IH (set_clock (fun t => t + TIMEOUT) st) Hq)
      as (st' & R & Hc & Hh & Hs & Hl).
    exists st'. split.
    + cbn [events_turns]. unfold mbind, M_bind.
      rewrite (events_turn_idle st q r Hq). rewrite R. reflexivity.
    + cbn [set_clock clock heap sse_clients requests_log] in *.
      rewrite Hc, Hh, Hs, Hl. repeat split. lia.
Qed.

Lemma sse_message_single_frame (e : Event) :
  ~ In 10 (Json.dumps (event_items e)).
Proof.
  intros Hin.
  pose proof (JsonFacts.dumps_printable (event_items e)) as Hp.
  rewrite Forall_forall in Hp. apply list_elem_of_In in Hin.
  specialize (Hp 10 Hin). unfold Json.printable in Hp. lia.
Qed.

(** C8: a turn of the serving loop with a message in the queue yields that
    message, so an event published to an empty registered queue is yielded
    as "data: ", its JSON text and two line feeds (the JSON text holds no
    line feed: it is one frame); a turn with an empty queue takes the
    30 time-units of the timeout and yields ": keep-alive" and two line
    feeds, so an idle connection is sent a keep-alive every 30
    time-units. *)
Theorem serving_loop_frames (st : State) (q : loc) (o : Queue) :
  heap st !! q = Some o ->
  (forall (m : str) (rest : list str),
     items o = m :: rest ->
     events_turn false q st
     = (inr (Yield m),
        set_heap (insert q {| items := rest; put_raises := put_raises o |})
          st))
  /\ (forall e : Event,
        NoDup (sse_clients st) -> q ∈ sse_clients st ->
        put_raises o = false -> items o = [] ->
        exists st1 st2,
          publish e st = (inr tt, st1)
          /\ events_turn false q st1
             = (inr (Yield (lit "data: " ++ Json.dumps (event_items e)
                            ++ [10; 10])), st2)
          /\ queue_items st2 q = []
          /\ clock st2 = clock st)
  /\ (forall e : Event, ~ In 10 (Json.dumps (event_items e)))
  /\ (items o = [] ->
      events_turn false q st
      = (inr (Yield (lit ": keep-alive" ++ [10; 10])),
         set_clock (fun t => t + 30) st))
  /\ (items o = [] ->
      forall n : nat, exists st',
        events_turns n q st
        = (inr (repeat (Yield (lit ": keep-alive" ++ [10; 10])) n), st')
        /\ clock st' = clock st + 30 * N.of_nat n
        /\ heap st' = heap st).
Proof.
  intros Hq. destruct o as [its r]. cbn [items put_raises].
  split; [|split; [|split; [|split]]].
  - intros m rest ->. apply events_turn_message, Hq.
  - intros e Hnd Hin -> ->.
    destruct (notify_clients_fanned_out e st) as (st1 & R & F).
    pose proof (fo_received _ _ _ F Hnd q Hin
                  (healthy_put_ok _ _ _ Hq eq_refl)) as Hrecv.
    pose proof (fo_health _ _ _ F q) as Hh.
    rewrite (healthy_put_ok _ _ _ Hq eq_refl) in Hh.
    unfold queue_items in Hrecv. rewrite Hq in Hrecv. cbn [items app] in Hrecv.
    unfold healthy in Hh.
    destruct (heap st1 !! q) as [[its1 r1]|] eqn:E1; [|discriminate].
    cbn [items put_raises] in *. subst its1.
    eexists st1, _. split; [exact R|]. split; [|split].
    + rewrite (events_turn_message st1 q _ _ _ E1). reflexivity.
    + unfold queue_items, set_heap. cbn [heap].
      rewrite lookup_insert_eq. reflexivity.
    + cbn [set_heap clock]. apply (fo_clock _ _ _ F).
  - apply sse_message_single_frame.
  - intros ->. apply (events_turn_idle st q r Hq).
  - intros -> n.
    destruct (events_turns_idle n st q r Hq) as (st' & R & Hc & Hh & _).
    exists st'. split; [exact R|]. split; assumption.
Qed.

Lemma serving_loop_frames_witness :
  exists st',
    events_turns 3 0%nat sample_hub
    = (inr (repeat (Yield (lit ": keep-alive" ++ [10; 10])) 3), st')
    /\ clock st' = clock sample_hub + 30 * N.of_nat 3
    /\ heap st' = heap sample_hub.
Proof.
  refine (proj2 (proj2 (proj2 (proj2
            (serving_loop_frames sample_hub 0%nat
               {| items := []; put_raises := false |} _)))) eq_refl 3%nat).
  reflexivity.
Defined.
